(** * Kinematics of the four-bar example: [leg_linkage/link_animation.py]

    The driver script declares a four-bar linkage (joints [O], [A], [B], [C];
    vectors [a], [b], [c], [d]), a driving profile of [n_frames] samples, three
    initial guesses and the loop-closure function, builds a [Mechanism] and
    runs [iterate] on it.

    The script's numbers are modelled twice.  Over exact reals ([R], with
    [np.pi] as [PI]) for lengths, endpoints, strict bounds and the analytic
    properties of the loop function; and in binary64 (module [binary64], with
    numpy's rounding at every operation) for the statements that rounding
    decides.  Python exceptions are the [inl] side of [result]. *)

From Stdlib Require Import Floats Uint63.
From Stdlib Require Import String Reals Lra Lia ZArith Bool List.
Import ListNotations.
Open Scope R_scope.

Set Implicit Arguments.
Set Warnings "-inexact-float".

(** ** Exceptions *)

Inductive exn : Type :=
| IndexError
| DomainError
| ConvergenceError (sample : nat)
| SingularSystemError (sample : nat).

Definition result (A : Type) : Type := (exn + A)%type.

Definition ok {A : Type} (a : A) : result A := inr a.
Definition raise {A : Type} (e : exn) : result A := inl e.

Definition bind {A B : Type} (c : result A) (k : A -> result B) : result B :=
  match c with
  | inl e => inl e
  | inr a => k a
  end.

Notation "x <- c ;; k" := (bind c (fun x => k))
  (at level 61, c at next level, right associativity).

Definition of_option {A : Type} (e : exn) (o : option A) : result A :=
  match o with
  | Some a => ok a
  | None => raise e
  end.

(** ** The part of numpy the script uses *)

Module np.

Definition pi : R := PI.

(** [l[i]] with Python's negative indices; [IndexError] out of range. *)
Definition getitem {A : Type} (l : list A) (i : Z) : result A :=
  let n := Z.of_nat (length l) in
  let j := if (i <? 0)%Z then (i + n)%Z else i in
  if (j <? 0)%Z then raise IndexError
  else of_option IndexError (nth_error l (Z.to_nat j)).

(** [np.linspace(start, stop, num)] with the default [endpoint=True]:
    [step = (stop - start) / (num - 1)], entries [i * step + start], and the
    last entry overwritten with [stop]. *)
Definition linspace (start stop : R) (num : nat) : list R :=
  let step := (stop - start) / INR (num - 1) in
  match num with
  | O => []
  | S O => [start]
  | S (S _) =>
      map (fun i => INR i * step + start) (seq 0 (num - 1)) ++ [stop]
  end.

(** [np.full(n, v)] and [np.zeros(n)]. *)
Definition full (n : nat) (v : R) : list R := repeat v n.
Definition zeros (n : nat) : list R := repeat 0 n.

(** [np.deg2rad], element-wise. *)
Definition deg2rad (degs : list R) : list R :=
  map (fun x => x * (PI / 180)) degs.

(** scalar * array *)
Definition scale (k : R) (arr : list R) : list R := map (Rmult k) arr.

End np.

(** ** Link lengths (m) *)

Definition L_GROUND : R := 3.
Definition L_INPUT : R := 1.
Definition L_COUPLER : R := 3.
Definition L_OUTPUT : R := 1.

(** ** Input motion *)

Definition n_frames : nat := 360.
Definition time : list R := np.linspace 0 1 n_frames.

(** [angular_velocity = 2 * np.pi / (time[-1] - time[0])] *)
Definition angular_velocity : result R :=
  t_last <- np.getitem time (-1) ;;
  t_first <- np.getitem time 0 ;;
  ok (2 * np.pi / (t_last - t_first)).

(** The first binding of [theta] (line 45); line 51 rebinds the name. *)
Definition theta_line45 : result (list R) :=
  w <- angular_velocity ;; ok (np.scale w time).

Definition omega : result (list R) :=
  w <- angular_velocity ;; ok (np.full n_frames w).

Definition alpha : list R := np.zeros n_frames.

Definition eps : R := 1 / 1000.

(** The binding of [theta] that reaches the [Mechanism] (line 51). *)
Definition theta : list R := np.linspace eps (2 * np.pi - eps) n_frames.

(** ** Guesses for the unknown angles *)

Definition pos_guess : list R := np.deg2rad [45; 90].
Definition vel_guess : list R := np.deg2rad [100; 100].
Definition acc_guess : list R := np.deg2rad [100; 100].

(** ** The [mechanism] package: joints, vectors, mechanisms

    [from mechanism import Mechanism, Joint, Vector]: the package is not part
    of the script; what follows is its contract. *)

Definition Vec2 : Type := (R * R)%type.
Definition vadd (p q : Vec2) : Vec2 := (fst p + fst q, snd p + snd q).
Definition vsub (p q : Vec2) : Vec2 := (fst p - fst q, snd p - snd q).

Module mechanism.

(** Modelled from the spec: the [Joint] class is not in the script's
    file; a joint is a name and nothing else. *)
Inductive Joint : Type := mkJoint (name : string).

Record Position : Type := { thetas : list R }.
Record Velocity : Type := { omegas : list R }.
Record Acceleration : Type := { alphas : list R }.

(** Modelled from the spec: the [Vector] class is not in the script's
    file.  A vector joins an ordered pair of joints, has a length [r] and
    either a fixed angle ([theta = Some t]) or an angle supplied at each
    evaluation ([theta = None]); [pos], [vel] and [acc] hold the resolved
    series, appended to once per sample. *)
Record Vector : Type := {
  joints : Joint * Joint;
  r : R;
  theta : option R;
  style : option string;
  pos : Position;
  vel : Velocity;
  acc : Acceleration
}.

(** [Vector(joints, r=..., theta=..., style=...)]: the series start
    empty. *)
Definition mkVector (js : Joint * Joint) (len : R) (ang : option R)
    (sty : option string) : Vector :=
  {| joints := js; r := len; theta := ang; style := sty;
     pos := {| thetas := [] |};
     vel := {| omegas := [] |};
     acc := {| alphas := [] |} |}.

(** Modelled from the spec: calling a vector evaluates its Cartesian
    component [length * (cos angle, sin angle)], at the angle the caller
    supplies ([v(angle)]) or at its own fixed angle ([v()]); [DomainError]
    when neither is there.  Only this evaluation by explicit angle, the one
    the script's loop uses, is modelled: a call reads nothing of what has
    been recorded on the vector. *)
Definition call (v : Vector) (angle : option R) : result Vec2 :=
  match angle, theta v with
  | Some t, _ => ok (r v * cos t, r v * sin t)
  | None, Some t => ok (r v * cos t, r v * sin t)
  | None, None => raise DomainError
  end.

(** Modelled from the spec: [record] appends the solved state of one
    sample, extending each of the three series by exactly one entry. *)
Definition record (v : Vector) (state : R * R * R) : Vector :=
  let '(angle, angular_velocity, angular_acceleration) := state in
  {| joints := joints v; r := r v; theta := theta v; style := style v;
     pos := {| thetas := thetas (pos v) ++ [angle] |};
     vel := {| omegas := omegas (vel v) ++ [angular_velocity] |};
     acc := {| alphas := alphas (acc v) ++ [angular_acceleration] |} |}.

(** A loop-closure function, reified: a signed sum of vector evaluations,
    each vector (an index into the mechanism's [vectors]) evaluated at the
    driving input, at one of the unknowns [x[k]], or with no argument. *)
Inductive Arg : Type :=
| ArgInput
| ArgUnknown (k : nat)
| ArgNone.

Record Term : Type := { positive : bool; vec : nat; arg : Arg }.

Definition LoopEq : Type := list Term.

Definition eval_arg (x : list R) (input : R) (g : Arg) : result (option R) :=
  match g with
  | ArgInput => ok (Some input)
  | ArgUnknown k => xk <- np.getitem x (Z.of_nat k) ;; ok (Some xk)
  | ArgNone => ok None
  end.

Definition eval_term (vs : list Vector) (x : list R) (input : R) (t : Term)
    : result Vec2 :=
  v <- of_option DomainError (nth_error vs (vec t)) ;;
  angle <- eval_arg x input (arg t) ;;
  call v angle.

Fixpoint eval_terms (vs : list Vector) (x : list R) (input : R)
    (acc0 : Vec2) (ts : list Term) : result Vec2 :=
  match ts with
  | [] => ok acc0
  | t :: ts' =>
      p <- eval_term vs x input t ;;
      eval_terms vs x input
        (if positive t then vadd acc0 p else vsub acc0 p) ts'
  end.

Definition eval_loop (vs : list Vector) (eq : LoopEq) (x : list R)
    (input : R) : result Vec2 :=
  match eq with
  | [] => ok (0, 0)
  | t :: ts =>
      p <- eval_term vs x input t ;;
      eval_terms vs x input (if positive t then p else vsub (0, 0) p) ts
  end.

(** The unknowns of a loop: the indices [k] of the [x[k]] it reads. *)
Definition unknown_index (t : Term) : option nat :=
  match arg t with
  | ArgUnknown k => Some k
  | _ => None
  end.

Fixpoint unknown_indices (eq : LoopEq) : list nat :=
  match eq with
  | [] => []
  | t :: ts =>
      match unknown_index t with
      | Some k => k :: unknown_indices ts
      | None => unknown_indices ts
      end
  end.

Definition num_unknowns (eq : LoopEq) : nat :=
  List.length (nodup Nat.eq_dec (unknown_indices eq)).

Definition binding_of (eq : LoopEq) (j : nat) : option Arg :=
  option_map arg (find (fun t => Nat.eqb (vec t) j) eq).

(** Modelled from the spec: the [Mechanism] class is not in the script's
    file.  It aggregates the vectors, the origin, the loop-closure
    function, the driving profile and the three guesses. *)
Record Mechanism : Type := {
  vectors : list Vector;
  origin : Joint;
  loops : LoopEq;
  input_pos : list R;
  input_vel : list R;
  input_acc : list R;
  guess : list R * list R * list R
}.

(** Modelled from the spec: construction rejects, with [DomainError] and
    before any solving, driving profiles of unequal lengths and guesses
    whose length is not the number of unknown angles. *)
Definition new (vs : list Vector) (o : Joint) (eq : LoopEq)
    (p v a : list R) (g : list R * list R * list R) : result Mechanism :=
  let '(gp, gv, ga) := g in
  let k := num_unknowns eq in
  if (Nat.eqb (List.length v) (List.length p)
      && Nat.eqb (List.length a) (List.length p)
      && Nat.eqb (List.length gp) k
      && Nat.eqb (List.length gv) k
      && Nat.eqb (List.length ga) k)%bool
  then ok {| vectors := vs; origin := o; loops := eq;
             input_pos := p; input_vel := v; input_acc := a; guess := g |}
  else raise DomainError.

(** Modelled from the spec: the state recorded on vector [v] for one
    sample: a fixed angle stays where it is, the driven vector takes the
    driving profile's entries, an unknown takes the solver's [k]-th entries;
    [DomainError] for an angle that nothing resolves. *)
Definition kinematic_state (v : Vector) (bnd : option Arg)
    (drive : R * R * R) (xs ws zs : list R) : result (R * R * R) :=
  match theta v, bnd with
  | Some t, _ => ok (t, 0, 0)
  | None, Some ArgInput => ok drive
  | None, Some (ArgUnknown k) =>
      x <- of_option DomainError (nth_error xs k) ;;
      w <- of_option DomainError (nth_error ws k) ;;
      z <- of_option DomainError (nth_error zs k) ;;
      ok (x, w, z)
  | None, _ => raise DomainError
  end.

(** Modelled from the spec: the recording step of one sample, on every
    vector in order. *)
Fixpoint record_all (eq : LoopEq) (drive : R * R * R) (xs ws zs : list R)
    (j : nat) (vs : list Vector) : result (list Vector) :=
  match vs with
  | [] => ok []
  | v :: vs' =>
      st <- kinematic_state v (binding_of eq j) drive xs ws zs ;;
      rest <- record_all eq drive xs ws zs (S j) vs' ;;
      ok (record v st :: rest)
  end.

Section Solver.

(** The numerical solvers are left open: a position root-finder on the
    loop function ([None]: the iteration bound was exceeded) and the two
    linear solves for velocity and acceleration ([None]: singular
    system). *)
Variable solve_position :
  (list R -> R -> result Vec2) -> list R -> R -> option (list R).
Variable solve_velocity :
  (list R -> R -> result Vec2) -> list R -> R * R -> list R
  -> option (list R).
Variable solve_acceleration :
  (list R -> R -> result Vec2) -> list R -> list R -> R * R * R -> list R
  -> option (list R).

(** Modelled from the spec: one transition per sample, in order:
    resolve position, then velocity, then acceleration, then record on
    every vector; the converged position is the next sample's guess; a
    failure stops the run with the sample index. *)
Fixpoint run (m : Mechanism) (i : nat) (samples : list (R * R * R))
    (gp : list R) (vs : list Vector) : result (list Vector) :=
  match samples with
  | [] => ok vs
  | (th, om, al) :: rest =>
      let f := eval_loop vs (loops m) in
      xs <- of_option (ConvergenceError i) (solve_position f gp th) ;;
      ws <- of_option (SingularSystemError i)
              (solve_velocity f xs (th, om) (snd (fst (guess m)))) ;;
      zs <- of_option (SingularSystemError i)
              (solve_acceleration f xs ws (th, om, al) (snd (guess m))) ;;
      vs' <- record_all (loops m) (th, om, al) xs ws zs 0 vs ;;
      run m (S i) rest xs vs'
  end.

(** Modelled from the spec: [iterate()] runs the samples [0..N-1] from the
    position guess and leaves the resolved series on the vectors. *)
Definition iterate (m : Mechanism) : result Mechanism :=
  let samples :=
    combine (combine (input_pos m) (input_vel m)) (input_acc m) in
  vs <- run m 0 samples (fst (fst (guess m))) (vectors m) ;;
  ok {| vectors := vs; origin := origin m; loops := loops m;
        input_pos := input_pos m; input_vel := input_vel m;
        input_acc := input_acc m; guess := guess m |}.

End Solver.

End mechanism.

(** ** Joints (match the example's topology) *)

Definition O := mechanism.mkJoint "O".
Definition A := mechanism.mkJoint "A".
Definition B := mechanism.mkJoint "B".
Definition C := mechanism.mkJoint "C".

(** ** Vectors ([a] is the input crank; [c] is the ground link) *)

Definition a := mechanism.mkVector (O, A) L_INPUT None None.
Definition b := mechanism.mkVector (A, B) L_COUPLER None None.
Definition c :=
  mechanism.mkVector (O, C) L_GROUND (Some np.pi) (Some "ground"%string).
Definition d := mechanism.mkVector (C, B) L_OUTPUT None None.

(** ** Loop equation

    [def loop(x, input): return a(input) + b(x[0]) - c() - d(x[1])].  The
    body reads the module's globals [a], [b], [c], [d]; [loop_on] takes them
    as arguments, [loop] is the function at the script's own bindings. *)

Definition loop_on (a b c d : mechanism.Vector) (x : list R) (input : R)
    : result Vec2 :=
  pa <- mechanism.call a (Some input) ;;
  x0 <- np.getitem x 0 ;;
  pb <- mechanism.call b (Some x0) ;;
  pc <- mechanism.call c None ;;
  x1 <- np.getitem x 1 ;;
  pd <- mechanism.call d (Some x1) ;;
  ok (vsub (vsub (vadd pa pb) pc) pd).

Definition loop (x : list R) (input : R) : result Vec2 :=
  loop_on a b c d x input.

(** The same expression as data, over the tuple [(a, b, c, d)] handed to
    the [Mechanism]. *)
Definition loop_eq : mechanism.LoopEq :=
  [ {| mechanism.positive := true;  mechanism.vec := 0;
       mechanism.arg := mechanism.ArgInput |};
    {| mechanism.positive := true;  mechanism.vec := 1;
       mechanism.arg := mechanism.ArgUnknown 0 |};
    {| mechanism.positive := false; mechanism.vec := 2;
       mechanism.arg := mechanism.ArgNone |};
    {| mechanism.positive := false; mechanism.vec := 3;
       mechanism.arg := mechanism.ArgUnknown 1 |} ].

(** ** The mechanism object and the run (lines 67-78) *)

Definition mech : result mechanism.Mechanism :=
  w <- omega ;;
  mechanism.new [a; b; c; d] O loop_eq theta w alpha
    (pos_guess, vel_guess, acc_guess).

(** ** Vocabulary of the statements *)

(** Cartesian component of a link of length [len] at angle [angle]. *)
Definition component (len angle : R) : Vec2 :=
  (len * cos angle, len * sin angle).

(** Positions (in the mechanism's [vectors]) of the vectors whose angle is
    an unknown of the loop: no fixed angle, and bound to some [x[k]]. *)
Definition angle_unknown (eq : mechanism.LoopEq) (vs : list mechanism.Vector)
    (j : nat) : bool :=
  match nth_error vs j with
  | Some v =>
      match mechanism.theta v, mechanism.binding_of eq j with
      | None, Some (mechanism.ArgUnknown _) => true
      | _, _ => false
      end
  | None => false
  end.

Definition unknown_vectors (eq : mechanism.LoopEq)
    (vs : list mechanism.Vector) : list nat :=
  filter (angle_unknown eq vs) (seq 0 (length vs)).

(** All three resolved series of a vector have [n] entries. *)
Definition series_len (n : nat) (v : mechanism.Vector) : Prop :=
  length (mechanism.thetas (mechanism.pos v)) = n /\
  length (mechanism.omegas (mechanism.vel v)) = n /\
  length (mechanism.alphas (mechanism.acc v)) = n.

(** The closed-form solution of the example (a parallelogram: the coupler
    stays parallel to the ground link, the output link to the crank), as a
    solver that never fails. *)
Definition exact_position (_ : list R -> R -> result Vec2) (_ : list R)
    (th : R) : option (list R) :=
  Some [PI; th].

Definition exact_velocity (_ : list R -> R -> result Vec2) (_ : list R)
    (drive : R * R) (_ : list R) : option (list R) :=
  Some [0; snd drive].

Definition exact_acceleration (_ : list R -> R -> result Vec2)
    (_ _ : list R) (drive : R * R * R) (_ : list R) : option (list R) :=
  Some [0; snd drive].

(** A vector at position [j] can be given a state from [k] solved unknowns:
    its angle is fixed, or it is the driven vector, or it is bound to some
    [x[i]] with [i < k]. *)
Definition resolvable (eq : mechanism.LoopEq) (k j : nat)
    (v : mechanism.Vector) : Prop :=
  match mechanism.theta v, mechanism.binding_of eq j with
  | Some _, _ => True
  | None, Some mechanism.ArgInput => True
  | None, Some (mechanism.ArgUnknown i) => (i < k)%nat
  | None, _ => False
  end.

Fixpoint all_resolvable (eq : mechanism.LoopEq) (k j : nat)
    (vs : list mechanism.Vector) : Prop :=
  match vs with
  | [] => True
  | v :: vs' => resolvable eq k j v /\ all_resolvable eq k (S j) vs'
  end.

(** The residual of the loop as a function of the two unknowns, and its
    Jacobian: one column per unknown, [d/dt (len cos t, len sin t)
    = (- len sin t, len cos t)], negated for the subtracted vector [d]. *)
Definition residual (input x0 x1 : R) : Vec2 :=
  vsub (vsub (vadd (component L_INPUT input) (component L_COUPLER x0))
             (component L_GROUND PI))
       (component L_OUTPUT x1).

Definition dcomponent (len angle : R) : Vec2 :=
  (- len * sin angle, len * cos angle).

Definition jacobian (x0 x1 : R) : Vec2 * Vec2 :=
  (dcomponent L_COUPLER x0, vsub (0, 0) (dcomponent L_OUTPUT x1)).

Definition det (J : Vec2 * Vec2) : R :=
  fst (fst J) * snd (snd J) - snd (fst J) * fst (snd J).

(** ** The driving profile in binary64

    Lines 39-51 again, with numpy's float64 arithmetic: [linspace] computes
    [step = (stop - start) / (num - 1)] and then [i * step + start], each
    operation rounded, and writes [stop] into the last entry. *)

Module np64.

Definition pi : float := 0x1.921fb54442d18p+1%float.

Definition of_nat (i : nat) : float :=
  PrimFloat.of_uint63 (Uint63.of_Z (Z.of_nat i)).

Definition linspace (start stop : float) (num : nat) : list float :=
  let step := ((stop - start) / of_nat (num - 1))%float in
  match num with
  | 0%nat => []
  | 1%nat => [start]
  | S (S _) =>
      map (fun i => of_nat i * step + start) (seq 0 (num - 1)) ++ [stop]
  end%float.

Definition full (n : nat) (v : float) : list float := repeat v n.
Definition zeros (n : nat) : list float := repeat 0%float n.
Definition scale (k : float) (arr : list float) : list float :=
  map (PrimFloat.mul k) arr.

End np64.

Module binary64.

Definition time : list float := np64.linspace 0 1 n_frames.

Definition angular_velocity : result float :=
  t_last <- np.getitem time (-1) ;;
  t_first <- np.getitem time 0 ;;
  ok (2 * np64.pi / (t_last - t_first))%float.

Definition theta_line45 : result (list float) :=
  w <- angular_velocity ;; ok (np64.scale w time).

Definition omega : result (list float) :=
  w <- angular_velocity ;; ok (np64.full n_frames w).

Definition alpha : list float := np64.zeros n_frames.

Definition eps : float := 1e-3%float.

Definition theta : list float :=
  np64.linspace eps (2 * np64.pi - eps)%float n_frames.

(** [(2 pi - 2 * 10^-3) / 359], as binary64 arithmetic gives it. *)
Definition uniform_step : float :=
  ((2 * np64.pi - 2 * 1e-3) / 359)%float.

(** Sample pair [i] of [theta]: increasing, and the difference within
    [2^-50] of [uniform_step]. *)
Definition step_check (i : nat) : bool :=
  match nth_error theta i, nth_error theta (S i) with
  | Some t0, Some t1 =>
      (PrimFloat.ltb t0 t1
       && PrimFloat.leb (PrimFloat.abs (t1 - t0 - uniform_step)) 0x1p-50)%float
  | _, _ => false
  end.

(** Sample pair [i]: the finite difference of [th] over [time] is below
    [omega[i]] by more than [lo] and less than [hi]. *)
Definition gap_check (th : list float) (lo hi : float) (i : nat) : bool :=
  match nth_error th i, nth_error th (S i),
        nth_error time i, nth_error time (S i), omega with
  | Some t0, Some t1, Some s0, Some s1, inr ws =>
      match nth_error ws i with
      | Some w =>
          (let q := (t1 - t0) / (s1 - s0) in
           PrimFloat.ltb lo (w - q) && PrimFloat.ltb (w - q) hi)%float
      | None => false
      end
  | _, _, _, _, _ => false
  end.

(** Sample [i]: the two bindings of [theta] differ by at most [bound]. *)
Definition shift_check (bound : float) (i : nat) : bool :=
  match nth_error theta i, theta_line45 with
  | Some t, inr th =>
      match nth_error th i with
      | Some t45 => PrimFloat.leb (PrimFloat.abs (t - t45)) bound
      | None => false
      end
  | _, _ => false
  end.

End binary64.

(** ** Facts about the numpy model *)

Lemma length_linspace (start stop : R) (num : nat) :
  length (np.linspace start stop num) = num.
Proof.
  unfold np.linspace.
  destruct num as [|[|k]]; [reflexivity | reflexivity |].
  rewrite length_app, length_map, length_seq. simpl. lia.
Qed.

Lemma nth_error_linspace_inner (start stop : R) (num i : nat) :
  (S i < num)%nat ->
  nth_error (np.linspace start stop num) i
  = Some (INR i * ((stop - start) / INR (num - 1)) + start).
Proof.
  intros Hi. unfold np.linspace.
  destruct num as [|[|k]]; [lia | lia |].
  rewrite nth_error_app1 by (rewrite length_map, length_seq; lia).
  rewrite nth_error_map, nth_error_seq.
  replace (i <? S (S k) - 1)%nat with true
    by (symmetry; apply Nat.ltb_lt; lia).
  reflexivity.
Qed.

Lemma nth_error_linspace_last (start stop : R) (num : nat) :
  (2 <= num)%nat ->
  nth_error (np.linspace start stop num) (num - 1) = Some stop.
Proof.
  intros Hn. unfold np.linspace.
  destruct num as [|[|k]]; [lia | lia |].
  rewrite nth_error_app2 by (rewrite length_map, length_seq; lia).
  rewrite length_map, length_seq.
  replace (S (S k) - 1 - (S (S k) - 1))%nat with 0%nat by lia.
  reflexivity.
Qed.

(** Every entry of a [linspace] with at least two points sits on the line
    through [start] with slope [step]. *)
Lemma nth_error_linspace (start stop : R) (num i : nat) :
  (2 <= num)%nat -> (i < num)%nat ->
  exists v, nth_error (np.linspace start stop num) i = Some v
            /\ v = start + INR i * ((stop - start) / INR (num - 1)).
Proof.
  intros Hn Hi.
  destruct (Nat.eq_dec i (num - 1)) as [-> | Hne].
  - exists stop. split; [apply nth_error_linspace_last; assumption |].
    assert (Hpos : INR (num - 1) <> 0) by (apply not_0_INR; lia).
    field. exact Hpos.
  - exists (INR i * ((stop - start) / INR (num - 1)) + start). split.
    + apply nth_error_linspace_inner. lia.
    + ring.
Qed.

Lemma ok_inj (A : Type) (x y : A) : ok x = ok y -> x = y.
Proof. intros H. unfold ok in H. injection H as E. exact E. Qed.

Lemma bind_ext (A B : Type) (m : result A) (k k' : A -> result B) :
  (forall x, k x = k' x) -> bind m k = bind m k'.
Proof.
  intros H. destruct m as [e | x]; [reflexivity | apply H].
Qed.

Lemma getitem_nat (A : Type) (l : list A) (i : nat) :
  np.getitem l (Z.of_nat i) = of_option IndexError (nth_error l i).
Proof.
  assert (H : (Z.of_nat i <? 0)%Z = false) by (apply Z.ltb_ge; lia).
  unfold np.getitem. cbv zeta. rewrite H. rewrite H.
  rewrite Nat2Z.id. reflexivity.
Qed.

Lemma getitem_minus_one (A : Type) (l : list A) :
  l <> [] ->
  np.getitem l (-1) = of_option IndexError (nth_error l (length l - 1)).
Proof.
  intros Hl. unfold np.getitem.
  change (-1 <? 0)%Z with true. cbv iota.
  destruct l as [|h t]; [congruence |].
  replace (-1 + Z.of_nat (length (h :: t)))%Z
    with (Z.of_nat (length (h :: t) - 1)) by (simpl length; lia).
  replace (Z.of_nat (length (h :: t) - 1) <? 0)%Z with false
    by (symmetry; apply Z.ltb_ge; lia).
  rewrite Nat2Z.id. reflexivity.
Qed.

Lemma nth_error_repeat_lt (v : R) (n i : nat) :
  (i < n)%nat -> nth_error (repeat v n) i = Some v.
Proof.
  revert i. induction n as [|n IH]; intros i Hi; [lia |].
  destruct i as [|i]; simpl; [reflexivity | apply IH; lia].
Qed.

(** ** The driving profile *)

Lemma length_time : length time = 360%nat.
Proof. apply length_linspace. Qed.

Lemma length_theta : length theta = 360%nat.
Proof. apply length_linspace. Qed.

Lemma length_alpha : length alpha = 360%nat.
Proof. apply repeat_length. Qed.

Lemma time_last : np.getitem time (-1) = ok 1.
Proof.
  rewrite getitem_minus_one.
  - rewrite length_time. unfold time, n_frames.
    rewrite (nth_error_linspace_last 0 1 (num := 360)) by lia. reflexivity.
  - intros H. pose proof length_time as L. rewrite H in L. discriminate L.
Qed.

Lemma time_first : exists t0, np.getitem time 0 = ok t0 /\ t0 = 0.
Proof.
  change 0%Z with (Z.of_nat 0). rewrite getitem_nat.
  unfold time, n_frames.
  rewrite nth_error_linspace_inner by lia.
  eexists. split; [reflexivity |]. change (INR 0) with 0. ring.
Qed.

Lemma angular_velocity_value :
  exists w, angular_velocity = ok w /\ w = 2 * PI.
Proof.
  destruct time_first as (t0 & H0 & E0).
  unfold angular_velocity. rewrite time_last, H0. simpl.
  eexists. split; [reflexivity |]. unfold np.pi. subst t0. field.
Qed.

Lemma omega_value :
  exists w, omega = ok (repeat w 360) /\ w = 2 * PI.
Proof.
  destruct angular_velocity_value as (w & Hw & E).
  exists w. split; [| exact E].
  unfold omega. rewrite Hw. reflexivity.
Qed.

Lemma PI_lower : 2 < PI.
Proof. pose proof PI2_1. lra. Qed.

Lemma theta_step_pos : 0 < (2 * PI - 2 / 1000) / 359.
Proof. pose proof PI_lower. lra. Qed.

(** Entry [i] of [theta], in closed form. *)
Lemma theta_entry (i : nat) :
  (i < 360)%nat ->
  exists t, nth_error theta i = Some t
            /\ t = 1 / 1000 + INR i * ((2 * PI - 2 / 1000) / 359).
Proof.
  intros Hi. unfold theta, n_frames.
  destruct (nth_error_linspace eps (2 * np.pi - eps) (num := 360) (i := i))
    as (t & Ht & Et); [lia | lia |].
  exists t. split; [exact Ht |].
  rewrite Et. unfold eps, np.pi.
  change (360 - 1)%nat with 359%nat.
  replace (INR 359) with 359 by (rewrite INR_IZR_INZ; reflexivity).
  field.
Qed.

(** Entry [i] of [time], in closed form. *)
Lemma time_entry (i : nat) :
  (i < 360)%nat ->
  exists s, nth_error time i = Some s /\ s = INR i / 359.
Proof.
  intros Hi. unfold time, n_frames.
  destruct (nth_error_linspace 0 1 (num := 360) (i := i))
    as (s & Hs & Es); [lia | lia |].
  exists s. split; [exact Hs |].
  rewrite Es. change (360 - 1)%nat with 359%nat.
  replace (INR 359) with 359 by (rewrite INR_IZR_INZ; reflexivity).
  field.
Qed.

(** ** The mechanism object *)

Lemma num_unknowns_loop_eq : mechanism.num_unknowns loop_eq = 2%nat.
Proof. reflexivity. Qed.

Lemma new_ok (vs : list mechanism.Vector) (o : mechanism.Joint)
    (eq : mechanism.LoopEq) (p v z gp gv ga : list R) :
  length v = length p -> length z = length p ->
  length gp = mechanism.num_unknowns eq ->
  length gv = mechanism.num_unknowns eq ->
  length ga = mechanism.num_unknowns eq ->
  mechanism.new vs o eq p v z (gp, gv, ga)
  = ok {| mechanism.vectors := vs; mechanism.origin := o;
          mechanism.loops := eq; mechanism.input_pos := p;
          mechanism.input_vel := v; mechanism.input_acc := z;
          mechanism.guess := (gp, gv, ga) |}.
Proof.
  intros Hv Hz Hp Hgv Hga. unfold mechanism.new.
  rewrite Hv, Hz, Hp, Hgv, Hga, !Nat.eqb_refl. reflexivity.
Qed.

(** The constructor accepts the script's arguments. *)
Lemma mech_built :
  exists w,
    w = 2 * PI /\ omega = ok (repeat w 360) /\
    mech = ok {| mechanism.vectors := [a; b; c; d];
                 mechanism.origin := O;
                 mechanism.loops := loop_eq;
                 mechanism.input_pos := theta;
                 mechanism.input_vel := repeat w 360;
                 mechanism.input_acc := alpha;
                 mechanism.guess := (pos_guess, vel_guess, acc_guess) |}.
Proof.
  destruct omega_value as (w & Hw & E).
  exists w. split; [exact E |]. split; [exact Hw |].
  unfold mech. rewrite Hw. cbv beta iota delta [bind].
  apply new_ok.
  - rewrite repeat_length, length_theta. reflexivity.
  - rewrite length_alpha, length_theta. reflexivity.
  - reflexivity.
  - reflexivity.
  - reflexivity.
Qed.

(** C3: the three driving-profile sequences handed to the [Mechanism]
    constructor ([pos=theta], [vel=omega], [acc=alpha]) all have length
    [N = n_frames = 360], and the constructor accepts them. *)
Theorem driving_profile_lengths :
  n_frames = 360%nat /\
  exists (w : list R) (m : mechanism.Mechanism),
    omega = ok w /\ mech = ok m /\
    mechanism.input_pos m = theta /\
    mechanism.input_vel m = w /\
    mechanism.input_acc m = alpha /\
    length theta = n_frames /\ length w = n_frames /\ length alpha = n_frames.
Proof.
  split; [reflexivity |].
  destruct mech_built as (w & _ & Hw & Hm).
  eexists. eexists. split; [exact Hw |]. split; [exact Hm |].
  cbn [mechanism.input_pos mechanism.input_vel mechanism.input_acc].
  do 3 (split; [reflexivity |]).
  split; [apply length_theta |].
  split; [apply repeat_length | apply length_alpha].
Qed.

(** C6: the example mechanism is built with input length 1.0, coupler
    length 3.0, ground length 3.0 and output length 1.0 (vectors [a], [b],
    [c], [d] in that order), the ground vector [c] being the only one with a
    fixed angle, [pi]. *)
Theorem example_link_lengths :
  L_GROUND = 3 /\ L_INPUT = 1 /\ L_COUPLER = 3 /\ L_OUTPUT = 1 /\
  mechanism.r c = L_GROUND /\ mechanism.r a = L_INPUT /\
  mechanism.r b = L_COUPLER /\ mechanism.r d = L_OUTPUT /\
  mechanism.theta c = Some PI /\
  mechanism.style c = Some "ground"%string /\
  exists m : mechanism.Mechanism,
    mech = ok m /\
    mechanism.vectors m = [a; b; c; d] /\
    map mechanism.r (mechanism.vectors m) = [1; 3; 3; 1] /\
    map mechanism.theta (mechanism.vectors m) = [None; None; Some PI; None].
Proof.
  repeat (split; [reflexivity |]).
  destruct mech_built as (w & _ & _ & Hm).
  eexists. split; [exact Hm |].
  cbn [mechanism.vectors map].
  split; [reflexivity |]. split; reflexivity.
Qed.

(** C7: the driving motion has constant angular velocity: at every sample
    [i < N], [omega[i]] is [2 pi / (time[-1] - time[0])], which is [2 pi],
    and [alpha[i]] is [0]. *)
Theorem driving_velocity_constant (i : nat) :
  (i < n_frames)%nat ->
  exists (ws : list R) (w z t_last t_first : R),
    omega = ok ws /\ nth_error ws i = Some w /\
    nth_error alpha i = Some z /\
    np.getitem time (-1) = ok t_last /\ np.getitem time 0 = ok t_first /\
    w = 2 * PI / (t_last - t_first) /\ w = 2 * PI /\ z = 0.
Proof.
  intros Hi. unfold n_frames in Hi.
  destruct omega_value as (w & Hw & E).
  destruct time_first as (t0 & H0 & E0).
  exists (repeat w 360), w, 0, 1, t0.
  split; [exact Hw |].
  split; [apply nth_error_repeat_lt; exact Hi |].
  split; [apply nth_error_repeat_lt; exact Hi |].
  split; [exact time_last |].
  split; [exact H0 |].
  split; [| split; [exact E | reflexivity]].
  rewrite E, E0. field.
Qed.

Lemma driving_velocity_constant_witness :
  (17 < n_frames)%nat /\
  exists (ws : list R) (w z t_last t_first : R),
    omega = ok ws /\ nth_error ws 17 = Some w /\
    nth_error alpha 17 = Some z /\
    np.getitem time (-1) = ok t_last /\ np.getitem time 0 = ok t_first /\
    w = 2 * PI / (t_last - t_first) /\ w = 2 * PI /\ z = 0.
Proof.
  assert (H : (17 < n_frames)%nat) by (unfold n_frames; lia).
  split; [exact H | exact (driving_velocity_constant H)].
Defined.

Lemma INR_bounds (i n : nat) : (i <= n)%nat -> 0 <= INR i <= INR n.
Proof.
  intros H. split; [apply pos_INR | apply le_INR; exact H].
Qed.

Lemma INR_359 : INR 359 = 359.
Proof. rewrite INR_IZR_INZ. reflexivity. Qed.

Lemma theta_in_range (i : nat) :
  (i < 360)%nat ->
  exists t, nth_error theta i = Some t /\ 0 < t < 2 * PI.
Proof.
  intros Hi.
  destruct (theta_entry Hi) as (t & Ht & Et).
  exists t. split; [exact Ht |].
  pose proof theta_step_pos as Hs.
  assert (Hb : (i <= 359)%nat) by lia.
  apply INR_bounds in Hb. rewrite INR_359 in Hb.
  set (s := (2 * PI - 2 / 1000) / 359) in *.
  assert (Hmax : INR i * s <= 359 * s)
    by (apply Rmult_le_compat_r; lra).
  assert (Hmin : 0 <= INR i * s)
    by (apply Rmult_le_pos; lra).
  assert (Htot : 359 * s = 2 * PI - 2 / 1000) by (unfold s; field).
  rewrite Et. lra.
Qed.

(** C8: every driving position sample lies strictly between [0] and
    [2 pi]; the first is [10^-3] and the last is [2 pi - 10^-3]. *)
Theorem theta_strictly_inside (i : nat) :
  (i < n_frames)%nat ->
  (exists t, nth_error theta i = Some t /\ 0 < t < 2 * PI) /\
  (exists t0, nth_error theta 0 = Some t0 /\ t0 = 1 / 1000) /\
  nth_error theta (n_frames - 1) = Some (2 * PI - 1 / 1000).
Proof.
  intros Hi. unfold n_frames in *. split; [| split].
  - apply theta_in_range. exact Hi.
  - assert (H0 : (0 < 360)%nat) by lia.
    destruct (theta_entry H0) as (t & Ht & Et).
    exists t. split; [exact Ht |].
    rewrite Et. change (INR 0) with 0. lra.
  - unfold theta, n_frames.
    rewrite nth_error_linspace_last by lia. reflexivity.
Qed.

Lemma theta_strictly_inside_witness :
  (180 < n_frames)%nat /\
  (exists t, nth_error theta 180 = Some t /\ 0 < t < 2 * PI) /\
  (exists t0, nth_error theta 0 = Some t0 /\ t0 = 1 / 1000) /\
  nth_error theta (n_frames - 1) = Some (2 * PI - 1 / 1000).
Proof.
  assert (H : (180 < n_frames)%nat) by (unfold n_frames; lia).
  split; [exact H | exact (theta_strictly_inside H)].
Defined.

(** The first binding of [theta] (line 45) did agree with [omega]: its
    finite difference is [2 pi] everywhere.  The rebinding on line 51 is what
    shrinks the sweep. *)
Lemma theta_line45_finite_difference (i : nat) :
  (i < 359)%nat ->
  exists (th : list R) (t0 t1 s0 s1 : R),
    theta_line45 = ok th /\
    nth_error th i = Some t0 /\ nth_error th (S i) = Some t1 /\
    nth_error time i = Some s0 /\ nth_error time (S i) = Some s1 /\
    (t1 - t0) / (s1 - s0) = 2 * PI.
Proof.
  intros Hi.
  assert (H0 : (i < 360)%nat) by lia.
  assert (H1 : (S i < 360)%nat) by lia.
  destruct (time_entry H0) as (s0 & Hs0 & F0).
  destruct (time_entry H1) as (s1 & Hs1 & F1).
  destruct angular_velocity_value as (w & Hw & Ew).
  exists (np.scale w time), (w * s0), (w * s1), s0, s1.
  split; [unfold theta_line45; rewrite Hw; reflexivity |].
  unfold np.scale. rewrite !nth_error_map, Hs0, Hs1.
  do 4 (split; [reflexivity |]).
  assert (Ds : s1 - s0 = 1 / 359) by (rewrite F0, F1, S_INR; field).
  replace (w * s1 - w * s0) with (w * (s1 - s0)) by ring.
  rewrite Ds, Ew. field.
Qed.

(** ** The driving profile as the script computes it *)

Lemma forallb_seq (f : nat -> bool) (n i : nat) :
  forallb f (seq 0 n) = true -> (i < n)%nat -> f i = true.
Proof.
  intros H Hi. rewrite forallb_forall in H. apply H.
  apply in_seq. lia.
Qed.

Lemma step_check_all :
  forallb binary64.step_check (seq 0 359) = true.
Proof. vm_compute. reflexivity. Qed.

(** C10, as stated, fails on the script's array: the step between samples
    358 and 359 is [0.01749633790300731], the step between samples 0 and 1 is
    [0.0174963379030072], and [(2 pi - 2 * 10^-3) / 359] is
    [0.017496337903007204]. *)
Lemma theta_steps_differ :
  exists t0 t1 t358 t359 : float,
    nth_error binary64.theta 0 = Some t0 /\
    nth_error binary64.theta 1 = Some t1 /\
    nth_error binary64.theta 358 = Some t358 /\
    nth_error binary64.theta 359 = Some t359 /\
    PrimFloat.eqb (t359 - t358) (t1 - t0) = false /\
    PrimFloat.eqb (t359 - t358) binary64.uniform_step = false /\
    PrimFloat.eqb (t1 - t0) binary64.uniform_step = false.
Proof.
  do 4 eexists.
  repeat (split; [vm_compute; reflexivity |]).
  vm_compute. reflexivity.
Qed.

(** C10, amended: [theta], the binary64 [linspace(10^-3, 2 pi - 10^-3,
    360)], increases strictly, [theta[i] < theta[i+1]] for every [i] in
    [0..358], and each step is within [2^-50] of [(2 pi - 2 * 10^-3) / 359]. *)
Theorem theta_increasing (i : nat) :
  (i < n_frames - 1)%nat ->
  exists t0 t1 : float,
    nth_error binary64.theta i = Some t0 /\
    nth_error binary64.theta (S i) = Some t1 /\
    PrimFloat.ltb t0 t1 = true /\
    PrimFloat.leb (PrimFloat.abs (t1 - t0 - binary64.uniform_step))
      0x1p-50 = true.
Proof.
  intros Hi.
  pose proof (forallb_seq binary64.step_check (n := 359) (i := i)
                step_check_all Hi) as H.
  unfold binary64.step_check in H.
  destruct (nth_error binary64.theta i) as [t0 |]; [| discriminate H].
  destruct (nth_error binary64.theta (S i)) as [t1 |]; [| discriminate H].
  apply andb_true_iff in H. destruct H as [H1 H2].
  exists t0, t1. repeat split; assumption.
Qed.

Lemma theta_increasing_witness :
  (358 < n_frames - 1)%nat /\
  exists t0 t1 : float,
    nth_error binary64.theta 358 = Some t0 /\
    nth_error binary64.theta 359 = Some t1 /\
    PrimFloat.ltb t0 t1 = true /\
    PrimFloat.leb (PrimFloat.abs (t1 - t0 - binary64.uniform_step))
      0x1p-50 = true.
Proof.
  assert (H : (358 < n_frames - 1)%nat) by (unfold n_frames; lia).
  split; [exact H | exact (theta_increasing H)].
Defined.

Lemma gap_check_spec (th : list float) (lo hi : float) (i : nat) :
  binary64.gap_check th lo hi i = true ->
  exists (ws : list float) (t0 t1 s0 s1 w : float),
    nth_error th i = Some t0 /\ nth_error th (S i) = Some t1 /\
    nth_error binary64.time i = Some s0 /\
    nth_error binary64.time (S i) = Some s1 /\
    binary64.omega = ok ws /\ nth_error ws i = Some w /\
    PrimFloat.ltb lo (w - (t1 - t0) / (s1 - s0)) = true /\
    PrimFloat.ltb (w - (t1 - t0) / (s1 - s0)) hi = true.
Proof.
  unfold binary64.gap_check. intros H.
  destruct (nth_error th i) as [t0 |] eqn:E0; [| discriminate H].
  destruct (nth_error th (S i)) as [t1 |] eqn:E1; [| discriminate H].
  destruct (nth_error binary64.time i) as [s0 |] eqn:F0; [| discriminate H].
  destruct (nth_error binary64.time (S i)) as [s1 |] eqn:F1;
    [| discriminate H].
  destruct binary64.omega as [e | ws] eqn:Hw; [discriminate H |].
  destruct (nth_error ws i) as [w |] eqn:Ew; [| discriminate H].
  cbv zeta in H. apply andb_true_iff in H. destruct H as [H1 H2].
  exists ws, t0, t1, s0, s1, w.
  do 4 (split; [reflexivity |]). split; [reflexivity |].
  split; [exact Ew |]. split; assumption.
Qed.

Lemma gap_check_line51 :
  forallb (binary64.gap_check binary64.theta 0.001999 0.002001) (seq 0 359)
  = true.
Proof. vm_compute. reflexivity. Qed.

(** On the script's arrays the finite difference of [theta] stays below the
    declared [omega[i]] by [2 * 10^-3] (between 0.001999 and 0.002001), at
    every one of the 359 sample pairs. *)
Lemma finite_difference_below_omega (i : nat) :
  (i < n_frames - 1)%nat ->
  exists (ws : list float) (t0 t1 s0 s1 w : float),
    nth_error binary64.theta i = Some t0 /\
    nth_error binary64.theta (S i) = Some t1 /\
    nth_error binary64.time i = Some s0 /\
    nth_error binary64.time (S i) = Some s1 /\
    binary64.omega = ok ws /\ nth_error ws i = Some w /\
    PrimFloat.ltb 0.001999 (w - (t1 - t0) / (s1 - s0)) = true /\
    PrimFloat.ltb (w - (t1 - t0) / (s1 - s0)) 0.002001 = true.
Proof.
  intros Hi. apply gap_check_spec.
  exact (forallb_seq _ (n := 359) (i := i) gap_check_line51 Hi).
Qed.

(** The profile of lines 44-46 was consistent: with the first binding of
    [theta] the finite difference is within [10^-9] of [omega[i]] at every
    sample pair. *)
Lemma line45_finite_difference_matches_omega :
  exists th : list float,
    binary64.theta_line45 = ok th /\
    forall i : nat, (i < n_frames - 1)%nat ->
      exists (ws : list float) (t0 t1 s0 s1 w : float),
        nth_error th i = Some t0 /\ nth_error th (S i) = Some t1 /\
        nth_error binary64.time i = Some s0 /\
        nth_error binary64.time (S i) = Some s1 /\
        binary64.omega = ok ws /\ nth_error ws i = Some w /\
        PrimFloat.ltb (-1e-9) (w - (t1 - t0) / (s1 - s0)) = true /\
        PrimFloat.ltb (w - (t1 - t0) / (s1 - s0)) 1e-9 = true.
Proof.
  destruct binary64.theta_line45 as [e | th] eqn:Hth;
    [vm_compute in Hth; discriminate Hth |].
  exists th. split; [reflexivity |].
  assert (Hall : forallb (binary64.gap_check th (-1e-9) 1e-9) (seq 0 359)
                 = true).
  { vm_compute in Hth. apply ok_inj in Hth. subst th.
    vm_compute. reflexivity. }
  intros i Hi. apply gap_check_spec.
  exact (forallb_seq _ (n := 359) (i := i) Hall Hi).
Qed.

(** C5 on the script's arrays, first sample pair: the finite difference of
    [theta] over [time] is [6.281185307179586] and the declared [omega[0]]
    is [6.283185307179586], [2 * 10^-3] apart. *)
Theorem finite_difference_misses_omega :
  exists (ws : list float) (t0 t1 s0 s1 w : float),
    nth_error binary64.theta 0 = Some t0 /\
    nth_error binary64.theta 1 = Some t1 /\
    nth_error binary64.time 0 = Some s0 /\
    nth_error binary64.time 1 = Some s1 /\
    binary64.omega = ok ws /\ nth_error ws 0 = Some w /\
    w = (2 * np64.pi)%float /\
    PrimFloat.eqb ((t1 - t0) / (s1 - s0)) w = false /\
    PrimFloat.ltb ((t1 - t0) / (s1 - s0)) w = true /\
    PrimFloat.ltb 0.001999 (w - (t1 - t0) / (s1 - s0)) = true /\
    PrimFloat.ltb (w - (t1 - t0) / (s1 - s0)) 0.002001 = true.
Proof.
  do 6 eexists.
  repeat (split; [vm_compute; reflexivity |]).
  vm_compute. reflexivity.
Qed.

(** ** The loop-closure function *)

Lemma loop_value (x0 x1 input : R) (rest : list R) :
  loop (x0 :: x1 :: rest) input
  = ok (vsub (vsub (vadd (component L_INPUT input) (component L_COUPLER x0))
                   (component L_GROUND PI))
             (component L_OUTPUT x1)).
Proof. reflexivity. Qed.

(** The reified loop denotes the script's function. *)
Lemma loop_eq_denotes_loop (x : list R) (input : R) :
  mechanism.eval_loop [a; b; c; d] loop_eq x input = loop x input.
Proof.
  destruct x as [|x0 [|x1 rest]]; reflexivity.
Qed.

(** The loop function reads [x[0]] and [x[1]] and nothing further. *)
Lemma loop_reads_two (x : list R) (input : R) :
  (exists p, loop x input = ok p) <-> (2 <= length x)%nat.
Proof.
  destruct x as [|x0 [|x1 rest]]; simpl length; split.
  - intros [p H]. discriminate H.
  - lia.
  - intros [p H]. discriminate H.
  - lia.
  - lia.
  - intros _. eexists. apply loop_value.
Qed.

(** C4: each of the three guesses has as many entries as the loop has
    unknown angles, and that number is 2: the unknowns are the angles of
    [b] and [d] (positions 1 and 3 of [(a, b, c, d)]), bound to [x[0]] and
    [x[1]]. *)
Theorem guess_lengths :
  length pos_guess = mechanism.num_unknowns loop_eq /\
  length vel_guess = mechanism.num_unknowns loop_eq /\
  length acc_guess = mechanism.num_unknowns loop_eq /\
  mechanism.num_unknowns loop_eq = 2%nat /\
  unknown_vectors loop_eq [a; b; c; d] = [1; 3]%nat /\
  length (unknown_vectors loop_eq [a; b; c; d]) = 2%nat /\
  mechanism.binding_of loop_eq 1 = Some (mechanism.ArgUnknown 0) /\
  mechanism.binding_of loop_eq 3 = Some (mechanism.ArgUnknown 1) /\
  (forall (x : list R) (input : R),
      mechanism.eval_loop [a; b; c; d] loop_eq x input = loop x input) /\
  (forall (x : list R) (input : R),
      (exists p, loop x input = ok p) <-> (2 <= length x)%nat).
Proof.
  do 8 (split; [reflexivity |]).
  split; [exact loop_eq_denotes_loop | exact loop_reads_two].
Qed.

(** With [x = (pi, input)] the loop closes: the coupler lies along the
    ground link and the output link is parallel to the crank. *)
Lemma loop_closes (input : R) :
  exists p, loop [PI; input] input = ok p /\ fst p = 0 /\ snd p = 0.
Proof.
  eexists. split; [apply loop_value |].
  unfold vsub, vadd, component, L_INPUT, L_COUPLER, L_GROUND, L_OUTPUT.
  cbn [fst snd]. split; ring.
Qed.

Lemma derivable_affine (f : R -> R) (k m x l : R) :
  derivable_pt_lim f x l ->
  derivable_pt_lim (fun t => k + m * f t) x (m * l).
Proof.
  intros Hf.
  apply derivable_pt_lim_ext with (f := (fct_cte k + mult_real_fct m f)%F).
  - intros z. reflexivity.
  - replace (m * l) with (0 + m * l) by ring.
    apply derivable_pt_lim_plus.
    + apply derivable_pt_lim_const.
    + apply derivable_pt_lim_scal. exact Hf.
Qed.

(** [jacobian] is the matrix of partial derivatives of [residual]. *)
Lemma jacobian_is_derivative (input x0 x1 : R) :
  derivable_pt_lim (fun t => fst (residual input t x1)) x0
    (fst (fst (jacobian x0 x1))) /\
  derivable_pt_lim (fun t => snd (residual input t x1)) x0
    (snd (fst (jacobian x0 x1))) /\
  derivable_pt_lim (fun t => fst (residual input x0 t)) x1
    (fst (snd (jacobian x0 x1))) /\
  derivable_pt_lim (fun t => snd (residual input x0 t)) x1
    (snd (snd (jacobian x0 x1))).
Proof.
  unfold residual, jacobian, dcomponent, component, vsub, vadd,
    L_INPUT, L_COUPLER, L_GROUND, L_OUTPUT.
  cbn [fst snd]. repeat split.
  - apply derivable_pt_lim_ext
      with (f := fun t => (1 * cos input - 3 * cos PI - 1 * cos x1)
                          + 3 * cos t).
    + intros z. ring.
    + replace (- (3) * sin x0) with (3 * - sin x0) by ring.
      apply derivable_affine, derivable_pt_lim_cos.
  - apply derivable_pt_lim_ext
      with (f := fun t => (1 * sin input - 3 * sin PI - 1 * sin x1)
                          + 3 * sin t).
    + intros z. ring.
    + apply derivable_affine, derivable_pt_lim_sin.
  - apply derivable_pt_lim_ext
      with (f := fun t => (1 * cos input + 3 * cos x0 - 3 * cos PI)
                          + (-1) * cos t).
    + intros z. ring.
    + replace (0 - - (1) * sin x1) with (-1 * - sin x1) by ring.
      apply derivable_affine, derivable_pt_lim_cos.
  - apply derivable_pt_lim_ext
      with (f := fun t => (1 * sin input + 3 * sin x0 - 3 * sin PI)
                          + (-1) * sin t).
    + intros z. ring.
    + replace (0 - 1 * cos x1) with (-1 * cos x1) by ring.
      apply derivable_affine, derivable_pt_lim_sin.
Qed.

(** Along the parallelogram branch the determinant is [3 sin input]. *)
Lemma det_on_branch (input : R) :
  det (jacobian PI input) = 3 * sin input.
Proof.
  unfold det, jacobian, dcomponent, vsub, L_COUPLER, L_OUTPUT.
  cbn [fst snd]. rewrite sin_PI, cos_PI. ring.
Qed.

(** ** The run over the samples *)

Section Iterate.

Variable solve_position :
  (list R -> R -> result Vec2) -> list R -> R -> option (list R).
Variable solve_velocity :
  (list R -> R -> result Vec2) -> list R -> R * R -> list R
  -> option (list R).
Variable solve_acceleration :
  (list R -> R -> result Vec2) -> list R -> list R -> R * R * R -> list R
  -> option (list R).

Lemma record_series_len (n : nat) (v : mechanism.Vector) (st : R * R * R) :
  series_len n v -> series_len (S n) (mechanism.record v st).
Proof.
  intros (Ht & Hw & Hz). destruct st as [[t w] z].
  unfold series_len, mechanism.record.
  cbn [mechanism.pos mechanism.vel mechanism.acc mechanism.thetas
       mechanism.omegas mechanism.alphas].
  rewrite !length_app. simpl length. lia.
Qed.

(** Recording one sample extends every series of every vector by one. *)
Lemma record_all_series_len (eq : mechanism.LoopEq) (drive : R * R * R)
    (xs ws zs : list R) (n : nat) (vs : list mechanism.Vector) :
  forall (j : nat) (vs' : list mechanism.Vector),
    Forall (series_len n) vs ->
    mechanism.record_all eq drive xs ws zs j vs = ok vs' ->
    Forall (series_len (S n)) vs' /\ length vs' = length vs.
Proof.
  induction vs as [|v vs IH]; intros j vs' Hall Hrec.
  - inversion Hrec; subst. split; [constructor | reflexivity].
  - cbn [mechanism.record_all] in Hrec.
    destruct (mechanism.kinematic_state v (mechanism.binding_of eq j)
                drive xs ws zs) as [e | st]; [discriminate Hrec |].
    cbn [bind ok raise] in Hrec.
    destruct (mechanism.record_all eq drive xs ws zs (S j) vs)
      as [e | rest] eqn:Hrest; [discriminate Hrec |].
    cbn [bind ok raise] in Hrec. inversion Hrec; subst vs'.
    inversion Hall as [| v0 vs0 Hv Hvs]; subst.
    destruct (IH (S j) rest Hvs Hrest) as [Hr Hlen].
    split.
    + constructor; [apply record_series_len; exact Hv | exact Hr].
    + simpl. rewrite Hlen. reflexivity.
Qed.

(** A run that succeeds has made one transition per sample. *)
Lemma run_series_len (m : mechanism.Mechanism)
    (samples : list (R * R * R)) :
  forall (i n : nat) (gp : list R) (vs vs' : list mechanism.Vector),
    Forall (series_len n) vs ->
    mechanism.run solve_position solve_velocity solve_acceleration
      m i samples gp vs = ok vs' ->
    Forall (series_len (n + length samples)) vs' /\ length vs' = length vs.
Proof.
  induction samples as [|[[th om] al] rest IH]; intros i n gp vs vs' Hall Hrun.
  - inversion Hrun; subst. rewrite Nat.add_0_r.
    split; [exact Hall | reflexivity].
  - cbn [mechanism.run] in Hrun.
    destruct (solve_position _ gp th) as [xs |]; [| discriminate Hrun].
    cbn [of_option bind ok raise] in Hrun.
    destruct (solve_velocity _ xs (th, om) _) as [ws |];
      [| discriminate Hrun].
    cbn [of_option bind ok raise] in Hrun.
    destruct (solve_acceleration _ xs ws (th, om, al) _) as [zs |];
      [| discriminate Hrun].
    cbn [of_option bind ok raise] in Hrun.
    destruct (mechanism.record_all (mechanism.loops m) (th, om, al)
                xs ws zs 0 vs) as [e | vs1] eqn:Hrec;
      [discriminate Hrun |].
    cbn [bind ok raise] in Hrun.
    destruct (record_all_series_len _ _ _ _ _ _ Hall Hrec) as [H1 L1].
    destruct (IH (S i) (S n) xs vs1 vs' H1 Hrun) as [H2 L2].
    split.
    + simpl length. rewrite Nat.add_succ_r. exact H2.
    + rewrite L2. exact L1.
Qed.

Lemma iterate_series_len (m m' : mechanism.Mechanism) :
  Forall (series_len 0) (mechanism.vectors m) ->
  length (mechanism.input_vel m) = length (mechanism.input_pos m) ->
  length (mechanism.input_acc m) = length (mechanism.input_pos m) ->
  mechanism.iterate solve_position solve_velocity solve_acceleration m
  = ok m' ->
  Forall (series_len (length (mechanism.input_pos m)))
    (mechanism.vectors m')
  /\ length (mechanism.vectors m') = length (mechanism.vectors m).
Proof.
  intros Hfresh Hv Ha Hit.
  unfold mechanism.iterate in Hit.
  destruct (mechanism.run _ _ _ m 0 _ _ (mechanism.vectors m))
    as [e | vs] eqn:Hrun; [discriminate Hit |].
  cbn [bind ok raise] in Hit. inversion Hit; subst m'.
  cbn [mechanism.vectors].
  destruct (@run_series_len m _ _ _ _ _ _ Hfresh Hrun) as [H L].
  rewrite !length_combine, Hv, Ha, !Nat.min_id in H.
  split; [exact H | exact L].
Qed.

(** The run changes the series only: the vectors stay the same links, in
    the same order. *)
Lemma record_all_joints (eq : mechanism.LoopEq) (drive : R * R * R)
    (xs ws zs : list R) (vs : list mechanism.Vector) :
  forall (j : nat) (vs' : list mechanism.Vector),
    mechanism.record_all eq drive xs ws zs j vs = ok vs' ->
    map mechanism.joints vs' = map mechanism.joints vs.
Proof.
  induction vs as [|v vs IH]; intros j vs' Hrec.
  - inversion Hrec; subst. reflexivity.
  - cbn [mechanism.record_all] in Hrec.
    destruct (mechanism.kinematic_state v (mechanism.binding_of eq j)
                drive xs ws zs) as [e | st]; [discriminate Hrec |].
    cbn [bind ok raise] in Hrec.
    destruct (mechanism.record_all eq drive xs ws zs (S j) vs)
      as [e | rest] eqn:Hrest; [discriminate Hrec |].
    cbn [bind ok raise] in Hrec. inversion Hrec; subst vs'.
    cbn [map]. rewrite (IH (S j) rest Hrest).
    destruct st as [[t w] z]. reflexivity.
Qed.

Lemma run_joints (m : mechanism.Mechanism) (samples : list (R * R * R)) :
  forall (i : nat) (gp : list R) (vs vs' : list mechanism.Vector),
    mechanism.run solve_position solve_velocity solve_acceleration
      m i samples gp vs = ok vs' ->
    map mechanism.joints vs' = map mechanism.joints vs.
Proof.
  induction samples as [|[[th om] al] rest IH]; intros i gp vs vs' Hrun.
  - inversion Hrun; subst. reflexivity.
  - cbn [mechanism.run] in Hrun.
    destruct (solve_position _ gp th) as [xs |]; [| discriminate Hrun].
    cbn [of_option bind ok raise] in Hrun.
    destruct (solve_velocity _ xs (th, om) _) as [ws |];
      [| discriminate Hrun].
    cbn [of_option bind ok raise] in Hrun.
    destruct (solve_acceleration _ xs ws (th, om, al) _) as [zs |];
      [| discriminate Hrun].
    cbn [of_option bind ok raise] in Hrun.
    destruct (mechanism.record_all (mechanism.loops m) (th, om, al)
                xs ws zs 0 vs) as [e | vs1] eqn:Hrec;
      [discriminate Hrun |].
    cbn [bind ok raise] in Hrun.
    rewrite (IH (S i) xs vs1 vs' Hrun).
    eapply record_all_joints. exact Hrec.
Qed.

Lemma iterate_joints (m m' : mechanism.Mechanism) :
  mechanism.iterate solve_position solve_velocity solve_acceleration m
  = ok m' ->
  map mechanism.joints (mechanism.vectors m')
  = map mechanism.joints (mechanism.vectors m).
Proof.
  intros Hit. unfold mechanism.iterate in Hit.
  destruct (mechanism.run _ _ _ m 0 _ _ (mechanism.vectors m))
    as [e | vs] eqn:Hrun; [discriminate Hit |].
  cbn [bind ok raise] in Hit. inversion Hit; subst m'.
  cbn [mechanism.vectors].
  eapply run_joints. exact Hrun.
Qed.

End Iterate.

(** ** Runs that do not fail *)

Lemma nth_error_in_range (A : Type) (l : list A) (i : nat) :
  (i < length l)%nat -> exists x, nth_error l i = Some x.
Proof.
  intros H. destruct (nth_error l i) as [x |] eqn:E.
  - exists x. reflexivity.
  - apply nth_error_None in E. lia.
Qed.

Lemma record_all_total (eq : mechanism.LoopEq) (drive : R * R * R)
    (xs ws zs : list R) (k : nat) (vs : list mechanism.Vector) :
  (k <= length xs)%nat -> (k <= length ws)%nat -> (k <= length zs)%nat ->
  forall j : nat,
    all_resolvable eq k j vs ->
    exists vs', mechanism.record_all eq drive xs ws zs j vs = ok vs'
                /\ all_resolvable eq k j vs'.
Proof.
  intros Hx Hw Hz.
  induction vs as [|v vs IH]; intros j Hres.
  - exists []. split; [reflexivity | exact I].
  - destruct Hres as [Hv Hvs].
    destruct (IH (S j) Hvs) as (rest & Hrest & Hres').
    assert (Hst : exists st, mechanism.kinematic_state v
                   (mechanism.binding_of eq j) drive xs ws zs = ok st).
    { unfold resolvable in Hv. unfold mechanism.kinematic_state.
      destruct (mechanism.theta v) as [t |]; [eexists; reflexivity |].
      destruct (mechanism.binding_of eq j) as [[| i |] |];
        try contradiction; [eexists; reflexivity |].
      destruct (@nth_error_in_range _ xs i) as [x Ex]; [lia |].
      destruct (@nth_error_in_range _ ws i) as [w Ew]; [lia |].
      destruct (@nth_error_in_range _ zs i) as [z Ez]; [lia |].
      rewrite Ex, Ew, Ez. eexists. reflexivity. }
    destruct Hst as [st Hst].
    exists (mechanism.record v st :: rest). split.
    + cbn [mechanism.record_all]. rewrite Hst. cbn [bind ok].
      rewrite Hrest. reflexivity.
    + split; [| exact Hres'].
      unfold resolvable in *. destruct st as [[t w] z]. exact Hv.
Qed.

Section Total.

Variable solve_position :
  (list R -> R -> result Vec2) -> list R -> R -> option (list R).
Variable solve_velocity :
  (list R -> R -> result Vec2) -> list R -> R * R -> list R
  -> option (list R).
Variable solve_acceleration :
  (list R -> R -> result Vec2) -> list R -> list R -> R * R * R -> list R
  -> option (list R).
Variable k : nat.

Hypothesis position_converges :
  forall f g th, exists xs,
    solve_position f g th = Some xs /\ (k <= length xs)%nat.
Hypothesis velocity_regular :
  forall f xs d g, exists ws,
    solve_velocity f xs d g = Some ws /\ (k <= length ws)%nat.
Hypothesis acceleration_regular :
  forall f xs ws d g, exists zs,
    solve_acceleration f xs ws d g = Some zs /\ (k <= length zs)%nat.

(** When the solvers never fail, neither does the run. *)
Lemma run_total (m : mechanism.Mechanism) (samples : list (R * R * R)) :
  forall (i : nat) (gp : list R) (vs : list mechanism.Vector),
    all_resolvable (mechanism.loops m) k 0 vs ->
    exists vs',
      mechanism.run solve_position solve_velocity solve_acceleration
        m i samples gp vs = ok vs'.
Proof.
  induction samples as [|[[th om] al] rest IH]; intros i gp vs Hres.
  - exists vs. reflexivity.
  - cbn [mechanism.run].
    destruct (position_converges
                (mechanism.eval_loop vs (mechanism.loops m)) gp th)
      as (xs & Hxs & Lx).
    rewrite Hxs. cbn [of_option bind ok].
    destruct (velocity_regular
                (mechanism.eval_loop vs (mechanism.loops m)) xs (th, om)
                (snd (fst (mechanism.guess m))))
      as (ws & Hws & Lw).
    rewrite Hws. cbn [of_option bind ok].
    destruct (acceleration_regular
                (mechanism.eval_loop vs (mechanism.loops m)) xs ws
                (th, om, al) (snd (mechanism.guess m)))
      as (zs & Hzs & Lz).
    rewrite Hzs. cbn [of_option bind ok].
    destruct (@record_all_total (mechanism.loops m) (th, om, al)
                xs ws zs k vs Lx Lw Lz 0%nat Hres)
      as (vs1 & Hrec & Hres1).
    rewrite Hrec. cbn [bind ok].
    apply IH. exact Hres1.
Qed.

Lemma iterate_total (m : mechanism.Mechanism) :
  all_resolvable (mechanism.loops m) k 0 (mechanism.vectors m) ->
  exists m',
    mechanism.iterate solve_position solve_velocity solve_acceleration m
    = ok m'.
Proof.
  intros Hres. unfold mechanism.iterate.
  destruct (@run_total m
              (combine (combine (mechanism.input_pos m)
                          (mechanism.input_vel m))
                 (mechanism.input_acc m))
              0%nat (fst (fst (mechanism.guess m)))
              (mechanism.vectors m) Hres) as (vs & Hvs).
  rewrite Hvs. eexists. reflexivity.
Qed.

End Total.

(** The example run with the closed-form solver goes through. *)
Lemma exact_run_succeeds (m : mechanism.Mechanism) :
  mech = ok m ->
  exists m',
    mechanism.iterate exact_position exact_velocity exact_acceleration m
    = ok m'.
Proof.
  intros Hm.
  destruct mech_built as (w & _ & _ & Hm0).
  rewrite Hm in Hm0. apply ok_inj in Hm0. subst m.
  apply (@iterate_total exact_position exact_velocity exact_acceleration 2).
  - intros f g th. eexists. split; [reflexivity | simpl; lia].
  - intros f xs dr g. eexists. split; [reflexivity | simpl; lia].
  - intros f xs ws dr g. eexists. split; [reflexivity | simpl; lia].
  - cbn [mechanism.loops mechanism.vectors all_resolvable].
    unfold resolvable. cbn. repeat split; lia.
Qed.

(** C2: once [iterate] has returned on the example mechanism, whatever the
    solvers, the mechanism still has its four vectors [a], [b], [c], [d] in
    order, and each of them has exactly [N = 360] resolved angles, angular
    velocities and angular accelerations, [N] being the length of the driving
    profile; every sample index below [N] reads an entry in each of the three
    series. *)
Theorem resolved_series_lengths
    (solve_position :
       (list R -> R -> result Vec2) -> list R -> R -> option (list R))
    (solve_velocity :
       (list R -> R -> result Vec2) -> list R -> R * R -> list R
       -> option (list R))
    (solve_acceleration :
       (list R -> R -> result Vec2) -> list R -> list R -> R * R * R
       -> list R -> option (list R))
    (m m' : mechanism.Mechanism) :
  mech = ok m ->
  mechanism.iterate solve_position solve_velocity solve_acceleration m
  = ok m' ->
  length (mechanism.input_pos m) = 360%nat /\
  length (mechanism.vectors m') = 4%nat /\
  map mechanism.joints (mechanism.vectors m')
  = [(O, A); (A, B); (O, C); (C, B)] /\
  Forall (series_len 360) (mechanism.vectors m') /\
  (forall (v : mechanism.Vector) (i : nat),
      In v (mechanism.vectors m') -> (i < 360)%nat ->
      exists t w z,
        nth_error (mechanism.thetas (mechanism.pos v)) i = Some t /\
        nth_error (mechanism.omegas (mechanism.vel v)) i = Some w /\
        nth_error (mechanism.alphas (mechanism.acc v)) i = Some z).
Proof.
  intros Hm Hit.
  destruct mech_built as (w & _ & _ & Hm0).
  rewrite Hm in Hm0. apply ok_inj in Hm0. subst m.
  assert (Hj := Hit). apply iterate_joints in Hj.
  apply iterate_series_len in Hit.
  - destruct Hit as [Hall Hlen].
    cbn [mechanism.input_pos mechanism.vectors] in Hall, Hlen, Hj |- *.
    rewrite length_theta in Hall.
    split; [apply length_theta |].
    split; [exact Hlen |].
    split; [exact Hj |].
    split; [exact Hall |].
    intros v i Hin Hi.
    rewrite Forall_forall in Hall.
    destruct (Hall v Hin) as (Ht & Hw & Hz).
    destruct (@nth_error_in_range _ (mechanism.thetas (mechanism.pos v)) i)
      as [t Et]; [lia |].
    destruct (@nth_error_in_range _ (mechanism.omegas (mechanism.vel v)) i)
      as [w' Ew]; [lia |].
    destruct (@nth_error_in_range _ (mechanism.alphas (mechanism.acc v)) i)
      as [z Ez]; [lia |].
    exists t, w', z. repeat split; assumption.
  - cbn [mechanism.vectors].
    repeat constructor.
  - cbn [mechanism.input_vel mechanism.input_pos].
    rewrite repeat_length, length_theta. reflexivity.
  - cbn [mechanism.input_acc mechanism.input_pos].
    rewrite length_alpha, length_theta. reflexivity.
Qed.

Lemma resolved_series_lengths_witness :
  exists m m' : mechanism.Mechanism,
    mech = ok m /\
    mechanism.iterate exact_position exact_velocity exact_acceleration m
    = ok m' /\
    length (mechanism.input_pos m) = 360%nat /\
    length (mechanism.vectors m') = 4%nat /\
    map mechanism.joints (mechanism.vectors m')
    = [(O, A); (A, B); (O, C); (C, B)] /\
    Forall (series_len 360) (mechanism.vectors m') /\
    (forall (v : mechanism.Vector) (i : nat),
        In v (mechanism.vectors m') -> (i < 360)%nat ->
        exists t w z,
          nth_error (mechanism.thetas (mechanism.pos v)) i = Some t /\
          nth_error (mechanism.omegas (mechanism.vel v)) i = Some w /\
          nth_error (mechanism.alphas (mechanism.acc v)) i = Some z).
Proof.
  destruct mech_built as (w & _ & _ & Hm).
  destruct (exact_run_succeeds Hm) as [m' Hit].
  eexists. exists m'.
  split; [exact Hm |]. split; [exact Hit |].
  exact (@resolved_series_lengths exact_position exact_velocity
           exact_acceleration _ m' Hm Hit).
Defined.

(** * Further properties of the script *)

(** ** The time grid (line 40) *)

(** X1: [time = linspace(0, 1, 360)] starts at [0] and ends at [1] (what
    [time[0]] and [time[-1]] read), increases strictly from each sample to the
    next, and stays inside [[0, 1]]. *)
Theorem time_increasing (i : nat) :
  (i < n_frames - 1)%nat ->
  (exists s0 s1,
      nth_error time i = Some s0 /\ nth_error time (S i) = Some s1 /\
      0 <= s0 /\ s0 < s1 /\ s1 <= 1) /\
  (exists t_first, np.getitem time 0 = ok t_first /\ t_first = 0) /\
  np.getitem time (-1) = ok 1 /\
  length time = n_frames.
Proof.
  intros Hi. unfold n_frames in Hi.
  assert (H0 : (i < 360)%nat) by lia.
  assert (H1 : (S i < 360)%nat) by lia.
  destruct (time_entry H0) as (s0 & Hs0 & F0).
  destruct (time_entry H1) as (s1 & Hs1 & F1).
  split; [| split; [exact time_first | split; [exact time_last |
                                               exact length_time]]].
  exists s0, s1. split; [exact Hs0 |]. split; [exact Hs1 |].
  assert (Ds : s1 - s0 = 1 / 359) by (rewrite F0, F1, S_INR; field).
  assert (Hb : (S i <= 359)%nat) by lia.
  apply INR_bounds in Hb. rewrite INR_359 in Hb.
  pose proof (pos_INR i) as Hp.
  split; [rewrite F0; apply Rmult_le_pos; lra |].
  split; [lra |].
  rewrite F1. apply Rmult_le_reg_r with (r := 359); [lra |].
  replace (INR (S i) / 359 * 359) with (INR (S i)) by field. lra.
Qed.

Lemma time_increasing_witness :
  (358 < n_frames - 1)%nat /\
  (exists s0 s1,
      nth_error time 358 = Some s0 /\ nth_error time 359 = Some s1 /\
      0 <= s0 /\ s0 < s1 /\ s1 <= 1) /\
  (exists t_first, np.getitem time 0 = ok t_first /\ t_first = 0) /\
  np.getitem time (-1) = ok 1 /\
  length time = n_frames.
Proof.
  assert (H : (358 < n_frames - 1)%nat) by (unfold n_frames; lia).
  split; [exact H | exact (time_increasing H)].
Defined.

(** ** The loop function (lines 63-64) *)

(** X2: called with fewer than two unknowns, [loop] raises [IndexError]
    (from [x[0]] when [x] is empty, from [x[1]] when it has one entry),
    whatever the input angle. *)
Theorem loop_index_error (x : list R) (input : R) :
  (length x < 2)%nat -> loop x input = raise IndexError.
Proof.
  intros Hx. destruct x as [|x0 [|x1 rest]].
  - reflexivity.
  - reflexivity.
  - simpl in Hx. lia.
Qed.

Lemma loop_index_error_witness :
  (length [PI] < 2)%nat /\ loop [PI] 0 = raise IndexError.
Proof.
  assert (H : (length [PI] < 2)%nat) by (simpl; lia).
  split; [exact H | exact (loop_index_error [PI] 0 H)].
Defined.

(** X5: the Jacobian of the residual with respect to the two unknowns has
    determinant [3 sin (x[0] - x[1])]: it is singular exactly when the
    coupler [b] and the output link [d] are collinear, and it does not
    depend on the input angle. *)
Theorem jacobian_determinant (input x0 x1 : R) :
  loop [x0; x1] input = ok (residual input x0 x1) /\
  derivable_pt_lim (fun t => fst (residual input t x1)) x0
    (fst (fst (jacobian x0 x1))) /\
  derivable_pt_lim (fun t => snd (residual input t x1)) x0
    (snd (fst (jacobian x0 x1))) /\
  derivable_pt_lim (fun t => fst (residual input x0 t)) x1
    (fst (snd (jacobian x0 x1))) /\
  derivable_pt_lim (fun t => snd (residual input x0 t)) x1
    (snd (snd (jacobian x0 x1))) /\
  det (jacobian x0 x1) = 3 * sin (x0 - x1) /\
  (det (jacobian x0 x1) = 0 <-> sin (x0 - x1) = 0).
Proof.
  assert (Hdet : det (jacobian x0 x1) = 3 * sin (x0 - x1)).
  { unfold det, jacobian, dcomponent, vsub, L_COUPLER, L_OUTPUT.
    cbn [fst snd]. rewrite sin_minus. ring. }
  split; [apply loop_value |].
  destruct (jacobian_is_derivative input x0 x1) as (D1 & D2 & D3 & D4).
  do 4 (split; [assumption |]).
  split; [exact Hdet |].
  rewrite Hdet. split; intros H; lra.
Qed.

(** ** The two bindings of [theta] (lines 45 and 51) *)




Lemma INR_179 : INR 179 = 179.
Proof. rewrite INR_IZR_INZ. reflexivity. Qed.

Lemma shift_check_all :
  forallb (binary64.shift_check 0.001000001) (seq 0 360) = true.
Proof. vm_compute. reflexivity. Qed.

(** X7: on the script's arrays the rebinding on line 51 moves no sample of
    the driving position by more than [10^-3], rounding apart:
    [|theta[i] - angular_velocity * time[i]| <= 0.001000001] for every
    [i < 360]. *)
Theorem rebinding_shift_bounded (i : nat) :
  (i < n_frames)%nat ->
  exists (th : list float) (t t45 : float),
    binary64.theta_line45 = ok th /\
    nth_error binary64.theta i = Some t /\ nth_error th i = Some t45 /\
    PrimFloat.leb (PrimFloat.abs (t - t45)) 0.001000001 = true.
Proof.
  intros Hi.
  pose proof (forallb_seq _ (n := 360) (i := i) shift_check_all Hi) as H.
  unfold binary64.shift_check in H.
  destruct (nth_error binary64.theta i) as [t |]; [| discriminate H].
  destruct binary64.theta_line45 as [e | th]; [discriminate H |].
  destruct (nth_error th i) as [t45 |] eqn:E45; [| discriminate H].
  exists th, t, t45.
  split; [reflexivity |]. split; [reflexivity |].
  split; [exact E45 | exact H].
Qed.

Lemma rebinding_shift_bounded_witness :
  (359 < n_frames)%nat /\
  exists (th : list float) (t t45 : float),
    binary64.theta_line45 = ok th /\
    nth_error binary64.theta 359 = Some t /\ nth_error th 359 = Some t45 /\
    PrimFloat.leb (PrimFloat.abs (t - t45)) 0.001000001 = true.
Proof.
  assert (H : (359 < n_frames)%nat) by (unfold n_frames; lia).
  split; [exact H | exact (rebinding_shift_bounded H)].
Defined.

(** X9: the sweep passes over the input angle [pi] between samples 179 and
    180 without sampling it: [theta[179] < pi < theta[180]], over the reals
    and on the script's binary64 array alike; at input [pi] the Jacobian of
    the loop is singular on [x = (pi, pi)]. *)
Theorem sweep_steps_over_pi :
  (exists t179 t180 : R,
      nth_error theta 179 = Some t179 /\ nth_error theta 180 = Some t180 /\
      t179 < PI /\ PI < t180) /\
  (exists f179 f180 : float,
      nth_error binary64.theta 179 = Some f179 /\
      nth_error binary64.theta 180 = Some f180 /\
      PrimFloat.ltb f179 np64.pi = true /\
      PrimFloat.ltb np64.pi f180 = true) /\
  det (jacobian PI PI) = 0.
Proof.
  split; [| split].
  - assert (H0 : (179 < 360)%nat) by lia.
    assert (H1 : (180 < 360)%nat) by lia.
    destruct (theta_entry H0) as (t0 & Ht0 & E0).
    destruct (theta_entry H1) as (t1 & Ht1 & E1).
    exists t0, t1.
    split; [exact Ht0 |]. split; [exact Ht1 |].
    change 180%nat with (S 179) in E1.
    rewrite S_INR in E1. rewrite INR_179 in E0, E1.
    pose proof PI_lower as HPI.
    split; [rewrite E0; lra | rewrite E1; lra].
  - do 2 eexists.
    repeat (split; [vm_compute; reflexivity |]).
    vm_compute. reflexivity.
  - rewrite det_on_branch, sin_PI. ring.
Qed.
